(** * NodeFileSystemDomain: the "fileSystem" domain of the Node side

    A shallow embedding of
    [src/filesystem/impls/node/node/NodeFileSystemDomain.js]: the metadata
    annotator [_addStats], the directory lister [readdirCmd], the file
    reader [readFileCmd] and the watch registry ([watchPath],
    [unwatchPath], [unwatchAll] and the error listener installed on every
    watcher), followed by the properties the specification states about
    them.

    The listener handed to [fs.watch] only forwards change events to the
    domain manager and touches nothing the commands read; it is left out,
    as is [init], which registers the commands. *)

From Stdlib Require Import ZArith NArith Ascii.
From stdpp Require Import gmap strings list fin_maps.

(** ** JavaScript values the module handles *)

(** A JavaScript string as its sequence of UTF-16 code units.  File
    system paths and entry names are kept as Rocq strings. *)
Abbreviation jsstr := (list N).

(** The [Error] objects of Node: the errno code and the text of
    [err.message]. *)
Record Error := mkError { err_code : string; err_message : string }.

#[global] Instance Error_eq_dec : EqDecision Error.
Proof. solve_decision. Defined.

(** The [fs.Stats] object, reduced to what [_addStats] reads:
    [stats.isDirectory()], [stats.mtime.getTime()] and [stats.size]. *)
Module Stats.
Record t := mk { isDirectory : bool; mtime_getTime : Z; size : Z }.
End Stats.

(** ** Promises (bluebird)

    A promise is modelled once settled: how it settled and at which tick of
    the event loop.  The tick only matters to [Promise_join], which
    rejects with the reason of whichever input rejects first. *)
Inductive outcome (A : Type) : Type :=
| Fulfilled (v : A)
| Rejected (reason : Error).
Arguments Fulfilled {A} v.
Arguments Rejected {A} reason.

Record promise (A : Type) : Type :=
  mkPromise { settled_at : nat; result : outcome A }.
Arguments mkPromise {A} settled_at result.
Arguments settled_at {A} p.
Arguments result {A} p.

(** A value returned from a [then] callback: a promise settled at once. *)
Definition Promise_resolve {A} (v : A) : promise A := mkPromise 0%nat (Fulfilled v).

(** [p.then(f)]: a rejection of [p] passes through untouched, a value is
    handed to [f], whose promise is followed. *)
Definition Promise_then {A B} (p : promise A) (f : A -> promise B) : promise B :=
  match result p with
  | Rejected e => mkPromise (settled_at p) (Rejected e)
  | Fulfilled v =>
      let q := f v in
      mkPromise (Nat.max (settled_at p) (settled_at q)) (result q)
  end.

(** [PromiseInspector]: [isFulfilled()] and [value()]. *)
Definition isFulfilled {A} (i : outcome A) : bool :=
  match i with Fulfilled _ => true | Rejected _ => false end.

Definition value {A} (i : outcome A) : option A :=
  match i with Fulfilled v => Some v | Rejected _ => None end.

(** [Promise.settle(ps)]: never rejects; fulfils, once every input has
    settled, with one inspector per input, in the order of the inputs. *)
Definition Promise_settle {A} (ps : list (promise A)) : promise (list (outcome A)) :=
  mkPromise (foldr (fun p t => Nat.max (settled_at p) t) 0%nat ps)
            (Fulfilled (map result ps)).

(** [Promise.join(a, b)] followed by [.spread]: fulfils with both values
    when both inputs fulfil, and otherwise rejects as soon as one input
    rejects, with that input's reason. *)
Definition Promise_join {A B} (a : promise A) (b : promise B) : promise (A * B) :=
  match result a, result b with
  | Fulfilled x, Fulfilled y =>
      mkPromise (Nat.max (settled_at a) (settled_at b)) (Fulfilled (x, y))
  | Rejected e, Fulfilled _ => mkPromise (settled_at a) (Rejected e)
  | Fulfilled _, Rejected e => mkPromise (settled_at b) (Rejected e)
  | Rejected ea, Rejected eb =>
      if (settled_at a <=? settled_at b)%nat
      then mkPromise (settled_at a) (Rejected ea)
      else mkPromise (settled_at b) (Rejected eb)
  end.

(** [p.nodeify(callback)]: the callback receives [(err)] or
    [(null, value)]; what it receives is the command's answer. *)
Definition nodeify {A} (p : promise A) : outcome A := result p.

(** [Array.prototype.reduce] with the three-argument callback
    [(total, element, index)]. *)
Fixpoint reduce_from {A B} (f : B -> A -> nat -> B) (index : nat) (total : B)
    (l : list A) : B :=
  match l with
  | [] => total
  | x :: l' => reduce_from f (S index) (f total x index) l'
  end.

Definition Array_reduce {A B} (f : B -> A -> nat -> B) (init : B) (l : list A) : B :=
  reduce_from f 0%nat init l.

(** [Array.prototype.join] on an array of strings. *)
Definition Array_join (l : list string) (sep : string) : string :=
  String.concat sep l.

(** ** The platform underneath: Node's [fs] module

    What the operating system answers is not part of the module; every
    definition below takes it as a parameter. *)
Record Platform := mkPlatform {
  (** [fs.readdir(path)]: the child names, in the order listed. *)
  fs_readdir : string -> promise (list string);
  (** [fs.stat(path)]. *)
  fs_stat : string -> promise Stats.t;
  (** the whole content of the file at [path], as raw bytes. *)
  fs_read : string -> promise (list Byte.byte);
  (** [fs.watch(path, ...)] throws this error, if any, instead of
      returning a watcher. *)
  fs_watch_throws : string -> option Error;
  (** [watcher.close()] throws this error, if any, for the watcher with
      the given identity. *)
  close_throws : nat -> option Error
}.

Definition readdirAsync (pf : Platform) (path : string) : promise (list string) :=
  fs_readdir pf path.

Definition statAsync (pf : Platform) (path : string) : promise Stats.t :=
  fs_stat pf path.

(** [Buffer.prototype.binarySlice]: the "binary" decoding, one code unit
    per byte, of the byte's value. *)
Definition binarySlice (b : list Byte.byte) : jsstr := map Byte.to_N b.

(** [fs.readFile(path, {encoding: enc})] with an encoding given: Node
    reads the raw bytes and answers [buffer.toString(enc)], a string.  The
    module only ever asks for "binary". *)
Definition readFileAsync_binary (pf : Platform) (path : string) : promise jsstr :=
  Promise_then (fs_read pf path) (fun buffer => Promise_resolve (binarySlice buffer)).

(** [String.prototype.toString]: takes no argument; whatever is passed
    is ignored and the string itself is returned. *)
Definition String_toString (s : jsstr) (_ignored : string) : jsstr := s.

(** ** The metadata annotator *)

(** The object handed to [_addStats], extended with the three fields it
    sets. *)
Record WithStats (A : Type) : Type :=
  mkWithStats { obj : A; isFile : bool; mtime : Z; size : Z }.
Arguments mkWithStats {A} obj isFile mtime size.
Arguments obj {A} w.
Arguments isFile {A} w.
Arguments mtime {A} w.
Arguments size {A} w.

Definition _addStats {A} (o : A) (stats : Stats.t) : WithStats A :=
  {| obj := o;
     isFile := negb (Stats.isDirectory stats);
     mtime := Stats.mtime_getTime stats;
     size := Stats.size stats |}.

(** [{name: ...}] and [{data: ...}], the two objects the module extends. *)
Record NameObj := mkName { name : string }.
Record DataObj := mkData { data : jsstr }.

Abbreviation PathEntry := (WithStats NameObj).
Abbreviation FileReadResult := (WithStats DataObj).

(** ** The directory lister *)

(** The callback of [inspectors.reduce].  [names[index]] is always defined
    there, [inspectors] being as long as [names], and [value()] is
    defined on a fulfilled inspector; the last branch is never taken. *)
Definition readdir_step (names : list string)
    (total : list PathEntry) (inspector : outcome Stats.t) (index : nat)
    : list PathEntry :=
  if isFulfilled inspector then
    match names !! index, value inspector with
    | Some n, Some stats => total ++ [_addStats {| name := n |} stats]
    | _, _ => total
    end
  else total.

Definition readdirCmd (pf : Platform) (path : string) : outcome (list PathEntry) :=
  nodeify
    (Promise_then (readdirAsync pf path) (fun names =>
       let statPromises :=
         map (fun n => statAsync pf (Array_join [path; n] "")) names in
       Promise_then (Promise_settle statPromises) (fun inspectors =>
         Promise_resolve (Array_reduce (readdir_step names) [] inspectors)))).

(** ** The file reader *)

Definition readFileCmd (pf : Platform) (path encoding : string)
    : outcome FileReadResult :=
  let readPromise := readFileAsync_binary pf path in
  let statPromise := statAsync pf path in
  nodeify
    (Promise_then (Promise_join readPromise statPromise) (fun '(data, stats) =>
       let filteredData := String_toString data encoding in
       Promise_resolve (_addStats {| data := filteredData |} stats))).

(** ** The watch registry *)

(** What [console.warn] and [console.error] printed. *)
Inductive LogLine :=
| Warn (text : string)
| Err (text : string).

(** The state the watch commands run on.  [_watcherMap] is the module's
    object of that name, used as a map from path to [FSWatcher]: its own
    properties are the watched paths (paths are absolute file system
    paths, so a key never names a member of [Object.prototype]).  A
    watcher is identified by its creation rank.  The other fields follow
    what the commands do to the world outside the map: how many watchers
    [fs.watch] has returned, which path the "error" listener of each
    watcher captured, on which watchers [close()] has completed, which
    watchers have reported an error, and the console. *)
Record State := mkState {
  _watcherMap : gmap string nat;
  created : nat;
  error_listener : gmap nat string;
  closed : gset nat;
  errored : gset nat;
  console : list LogLine
}.

Definition init_state : State :=
  {| _watcherMap := ∅; created := 0; error_listener := ∅;
     closed := ∅; errored := ∅; console := [] |}.

Definition set_watcherMap (f : gmap string nat -> gmap string nat) (s : State) : State :=
  {| _watcherMap := f (_watcherMap s); created := created s;
     error_listener := error_listener s; closed := closed s;
     errored := errored s; console := console s |}.

Definition set_created (n : nat) (s : State) : State :=
  {| _watcherMap := _watcherMap s; created := n;
     error_listener := error_listener s; closed := closed s;
     errored := errored s; console := console s |}.

Definition set_error_listener (f : gmap nat string -> gmap nat string) (s : State) : State :=
  {| _watcherMap := _watcherMap s; created := created s;
     error_listener := f (error_listener s); closed := closed s;
     errored := errored s; console := console s |}.

Definition set_closed (f : gset nat -> gset nat) (s : State) : State :=
  {| _watcherMap := _watcherMap s; created := created s;
     error_listener := error_listener s; closed := f (closed s);
     errored := errored s; console := console s |}.

Definition set_errored (f : gset nat -> gset nat) (s : State) : State :=
  {| _watcherMap := _watcherMap s; created := created s;
     error_listener := error_listener s; closed := closed s;
     errored := f (errored s); console := console s |}.

Definition set_console (f : list LogLine -> list LogLine) (s : State) : State :=
  {| _watcherMap := _watcherMap s; created := created s;
     error_listener := error_listener s; closed := closed s;
     errored := errored s; console := f (console s) |}.

(** How a statement completes: normally, with a value, or by throwing. *)
Inductive completion (A : Type) : Type :=
| Normal (v : A)
| Throw (e : Error).
Arguments Normal {A} v.
Arguments Throw {A} e.

(** Synchronous code over the state, which may throw. *)
Definition Cmd (A : Type) : Type := State -> completion A * State.

#[global] Instance Cmd_ret : MRet Cmd := fun A v s => (Normal v, s).

#[global] Instance Cmd_bind : MBind Cmd := fun A B f m s =>
  match m s with
  | (Normal v, s') => f v s'
  | (Throw e, s') => (Throw e, s')
  end.

Definition gets {A} (f : State -> A) : Cmd A := fun s => (Normal (f s), s).
Definition modify (f : State -> State) : Cmd unit := fun s => (Normal tt, f s).
Definition throw {A} (e : Error) : Cmd A := fun s => (Throw e, s).

(** [try { body } catch (err) { handler }]. *)
Definition try_catch {A} (body : Cmd A) (handler : Error -> Cmd A) : Cmd A := fun s =>
  match body s with
  | (Normal v, s') => (Normal v, s')
  | (Throw e, s') => handler e s'
  end.

(** [try { body } catch (err) { handler } finally { finalizer }]: the
    finalizer runs on every way out of the [try] and of the [catch]; the
    statement completes as they did unless the finalizer itself throws. *)
Definition try_catch_finally {A} (body : Cmd A) (handler : Error -> Cmd A)
    (finalizer : Cmd unit) : Cmd A := fun s =>
  let '(c, s1) := try_catch body handler s in
  match finalizer s1 with
  | (Normal _, s2) => (c, s2)
  | (Throw e, s2) => (Throw e, s2)
  end.

Definition answer {A} (m : Cmd A) (s : State) : completion A := fst (m s).
Definition exec {A} (m : Cmd A) (s : State) : State := snd (m s).

(** [_watcherMap.hasOwnProperty(path)]. *)
Definition hasOwnProperty (path : string) : Cmd bool :=
  gets (fun s => bool_decide (is_Some (_watcherMap s !! path))).

(** [console.warn(...)], [console.error(...)]. *)
Definition console_warn (text : string) : Cmd unit :=
  modify (set_console (fun l => l ++ [Warn text])).
Definition console_error (text : string) : Cmd unit :=
  modify (set_console (fun l => l ++ [Err text])).

(** [fs.watch(path, {persistent: false}, listener)]: throws, or returns a
    new watcher. *)
Definition fs_watch (pf : Platform) (path : string) : Cmd nat := fun s =>
  match fs_watch_throws pf path with
  | Some e => (Throw e, s)
  | None => (Normal (created s), set_created (S (created s)) s)
  end.

(** [watcher.close()]. *)
Definition watcher_close (pf : Platform) (watcher : nat) : Cmd unit := fun s =>
  match close_throws pf watcher with
  | Some e => (Throw e, s)
  | None => (Normal tt, set_closed (fun c => c ∪ {[watcher]}) s)
  end.

(** [watcher.on("error", function (err) { ... path ... })]. *)
Definition watcher_on_error (watcher : nat) (path : string) : Cmd unit :=
  modify (set_error_listener <[watcher := path]>).

Definition unwatchPath (pf : Platform) (path : string) : Cmd unit :=
  watcher ← gets (fun s => _watcherMap s !! path);
  match watcher with
  | Some w =>
      try_catch_finally
        (watcher_close pf w)
        (fun err => console_warn
           ("Failed to unwatch file " +:+ path +:+ ": " +:+ err_message err))
        (modify (set_watcherMap (delete path)))
  | None => mret tt
  end.

Definition watchPath (pf : Platform) (path : string) : Cmd unit :=
  present ← hasOwnProperty path;
  if (present : bool) then mret tt
  else
    try_catch
      (watcher ← fs_watch pf path;
       modify (set_watcherMap <[path := watcher]>);;
       watcher_on_error watcher path)
      (fun err => console_warn
         ("Failed to watch file " +:+ path +:+ ": " +:+ err_message err)).

(** [for (path in object) body]: the body runs for the keys found when
    the loop starts, one after the other. *)
Fixpoint for_in (keys : list string) (body : string -> Cmd unit) : Cmd unit :=
  match keys with
  | [] => mret tt
  | k :: keys' => body k;; for_in keys' body
  end.

(** The body of the loop of [unwatchAll]. *)
Definition unwatch_if_own (pf : Platform) (path : string) : Cmd unit :=
  own ← hasOwnProperty path;
  if (own : bool) then unwatchPath pf path else mret tt.

(** The paths registered in [s], in the order [unwatchAll] takes them
    here.  JavaScript enumerates the keys in the order they were added,
    which a finite map does not record; [for_in] is therefore also studied
    over any enumeration of the keys.  The order shows only in the order
    of the console lines of several [close()] calls that throw. *)
Definition registered_paths (s : State) : list string :=
  (map_to_list (_watcherMap s)).*1.

Definition unwatchAll (pf : Platform) : Cmd unit :=
  keys ← gets registered_paths;
  for_in keys (unwatch_if_own pf).

(** The listener [watchPath] installs on the watcher, run when the
    watcher emits "error": it logs and unwatches the path it captured.
    An "error" event without a listener is thrown by the emitter. *)
Definition emit_error (pf : Platform) (watcher : nat) (err : Error) : Cmd unit :=
  modify (set_errored (fun e => e ∪ {[watcher]}));;
  listener ← gets (fun s => error_listener s !! watcher);
  match listener with
  | Some path =>
      console_error ("Error watching file " +:+ path +:+ ": " +:+ err_message err);;
      unwatchPath pf path
  | None => throw err
  end.

(** ** A concrete platform: a file tree held in memory

    Used to run the commands on explicit inputs. *)
#[local] Unset Elimination Schemes.
Inductive Inode :=
| IFile (content : list Byte.byte) (modified : Z)
| IDir (modified : Z) (entries : list (string * Inode))
| IGone.
#[local] Set Elimination Schemes.
(** [IGone] is a directory entry still listed by [readdir] whose inode is
    gone by the time it is looked up (removed meanwhile, or a dangling
    link). *)

(** The components of a path: the pieces between the separators, empty
    pieces dropped, so that "/tmp/d", "/tmp/d/" and "/tmp//d" agree. *)
Fixpoint components_from (s : string) (piece : string) : list string :=
  match s with
  | EmptyString => if decide (piece = "") then [] else [piece]
  | String c s' =>
      if Ascii.eqb c "/"%char
      then (if decide (piece = "") then [] else [piece]) ++ components_from s' ""
      else components_from s' (piece +:+ String c EmptyString)
  end.

Definition components (path : string) : list string := components_from path "".

Definition is_absolute (path : string) : bool :=
  match path with
  | String c _ => Ascii.eqb c "/"%char
  | EmptyString => false
  end.

Fixpoint child (n : string) (entries : list (string * Inode)) : option Inode :=
  match entries with
  | [] => None
  | (k, i) :: rest => if decide (k = n) then Some i else child n rest
  end.

Fixpoint walk (pieces : list string) (i : Inode) : option Inode :=
  match pieces with
  | [] => Some i
  | p :: rest =>
      match i with
      | IDir _ entries =>
          match child p entries with
          | Some i' => walk rest i'
          | None => None
          end
      | _ => None
      end
  end.

Definition resolve (root : Inode) (path : string) : option Inode :=
  if is_absolute path then walk (components path) root else None.

Definition ENOENT (syscall path : string) : Error :=
  mkError "ENOENT" ("ENOENT, " +:+ syscall +:+ " '" +:+ path +:+ "'").
Definition ENOTDIR (syscall path : string) : Error :=
  mkError "ENOTDIR" ("ENOTDIR, " +:+ syscall +:+ " '" +:+ path +:+ "'").
Definition EISDIR (syscall path : string) : Error :=
  mkError "EISDIR" ("EISDIR, " +:+ syscall +:+ " '" +:+ path +:+ "'").

Definition mem_readdir (root : Inode) (path : string) : outcome (list string) :=
  match resolve root path with
  | Some (IDir _ entries) => Fulfilled (entries.*1)
  | Some (IFile _ _) => Rejected (ENOTDIR "readdir" path)
  | _ => Rejected (ENOENT "readdir" path)
  end.

Definition mem_stat (root : Inode) (path : string) : outcome Stats.t :=
  match resolve root path with
  | Some (IFile content m) =>
      Fulfilled (Stats.mk false m (Z.of_nat (length content)))
  | Some (IDir m _) => Fulfilled (Stats.mk true m 4096%Z)
  | _ => Rejected (ENOENT "stat" path)
  end.

Definition mem_read (root : Inode) (path : string) : outcome (list Byte.byte) :=
  match resolve root path with
  | Some (IFile content _) => Fulfilled content
  | Some (IDir _ _) => Rejected (EISDIR "read" path)
  | _ => Rejected (ENOENT "open" path)
  end.

(** The platform over the tree [root].  A [stat] settles one tick before
    a full read does; [fs.watch] throws where [stat] fails; [close()]
    throws for the watchers listed in [stuck]. *)
Definition memfs (root : Inode) (stuck : list nat) : Platform :=
  {| fs_readdir path := mkPromise 1 (mem_readdir root path);
     fs_stat path := mkPromise 1 (mem_stat root path);
     fs_read path := mkPromise 2 (mem_read root path);
     fs_watch_throws path :=
       match resolve root path with
       | Some (IFile _ _) | Some (IDir _ _) => None
       | _ => Some (ENOENT "watch" path)
       end;
     close_throws w :=
       if bool_decide (w ∈ stuck) then Some (mkError "EBADF" "EBADF, close") else None |}.

(** The directory of the specification's scenario: "/tmp/d" holds [a], a
    file of ten bytes, and [b], removed while the listing is under way. *)
Definition ten_bytes : list Byte.byte :=
  [Byte.x30; Byte.x31; Byte.x32; Byte.x33; Byte.x34;
   Byte.x35; Byte.x36; Byte.x37; Byte.x38; Byte.x39].

Definition scenario_root : Inode :=
  IDir 1000 [("tmp", IDir 2000 [("d", IDir 3000 [("a", IFile ten_bytes 4000); ("b", IGone)])])].

Definition scenario : Platform := memfs scenario_root [].

(** ** Reference decoders

    [Buffer.prototype.hexSlice] and [Buffer.prototype.asciiSlice], which
    [buffer.toString("hex")] and [buffer.toString("ascii")] answer on a
    buffer: what decoding the raw bytes in these encodings gives. *)
Definition hex_digit (n : N) : N :=
  if (n <? 10)%N then (48 + n)%N else (87 + n)%N.

Definition hexSlice (b : list Byte.byte) : jsstr :=
  flat_map (fun x => [hex_digit (Byte.to_N x / 16); hex_digit (Byte.to_N x mod 16)]) b.

Definition asciiSlice (b : list Byte.byte) : jsstr :=
  map (fun x => N.land (Byte.to_N x) 127) b.

(** A file holding the two bytes C3 A9, the UTF-8 form of U+00E9. *)
Definition accent_root : Inode :=
  IDir 1000 [("e.txt", IFile [Byte.xc3; Byte.xa9] 5000)].

(** ** Counting registry entries *)

(** The number of entries of the registry keyed by [path]. *)
Definition count_key (path : string) (m : gmap string nat) : nat :=
  length (filter (fun kv => kv.1 = path) (map_to_list m)).

Definition entries_for (path : string) (s : State) : nat :=
  count_key path (_watcherMap s).

(** ** Reachable states and the registry invariant *)

(** The states the registry can be in: the initial one, and those
    reached by a command or by an "error" event of a watcher that has the
    listener of [watchPath] on it, whatever the platform answers at each
    step. *)
Inductive reachable : State -> Prop :=
| reach_init : reachable init_state
| reach_watchPath pf path s :
    reachable s -> reachable (exec (watchPath pf path) s)
| reach_unwatchPath pf path s :
    reachable s -> reachable (exec (unwatchPath pf path) s)
| reach_unwatchAll pf s :
    reachable s -> reachable (exec (unwatchAll pf) s)
| reach_error pf w err s :
    reachable s -> is_Some (error_listener s !! w) ->
    reachable (exec (emit_error pf w err) s).

(** A watcher is active when [fs.watch] has returned it, [close()] has
    not completed on it, and it has reported no error. *)
Definition active (s : State) (w : nat) : Prop :=
  (w < created s)%nat ∧ (w ∉ closed s) ∧ (w ∉ errored s).

(** No dangling handle: every registered watcher is active. *)
Definition no_dangling (s : State) : Prop :=
  ∀ path w, _watcherMap s !! path = Some w -> active s w.

(** What holds of every reachable state, and carries [no_dangling]: a
    registered watcher is active and its listener captured the key it is
    registered under; only watchers that exist have a listener, are closed
    or have failed. *)
Definition consistent (s : State) : Prop :=
  (∀ path w, _watcherMap s !! path = Some w ->
     error_listener s !! w = Some path ∧ (w ∉ closed s) ∧ (w ∉ errored s)) ∧
  (∀ w, is_Some (error_listener s !! w) ∨ w ∈ closed s ∨ w ∈ errored s ->
     (w < created s)%nat).

(** ** Closed forms of the commands

    What each command leaves of the state, written without the monad;
    the lemmas of the next part show the commands compute exactly these. *)

(** The state after [unwatchPath(path)]. *)
Definition unwatched (pf : Platform) (path : string) (s : State) : State :=
  match _watcherMap s !! path with
  | None => s
  | Some w =>
      set_watcherMap (delete path)
        (match close_throws pf w with
         | None => set_closed (fun c => c ∪ {[w]}) s
         | Some e =>
             set_console
               (fun l => l ++ [Warn ("Failed to unwatch file " +:+ path +:+ ": "
                                     +:+ err_message e)]) s
         end)
  end.

(** The state after [watchPath(path)]. *)
Definition watched (pf : Platform) (path : string) (s : State) : State :=
  if bool_decide (is_Some (_watcherMap s !! path)) then s
  else match fs_watch_throws pf path with
       | Some e =>
           set_console
             (fun l => l ++ [Warn ("Failed to watch file " +:+ path +:+ ": "
                                   +:+ err_message e)]) s
       | None =>
           set_error_listener <[created s := path]>
             (set_watcherMap <[path := created s]>
                (set_created (S (created s)) s))
       end.

(** The state the listener leaves: the error noted and logged, then what
    [unwatchPath] does. *)
Definition failed (w : nat) (path : string) (err : Error) (s : State) : State :=
  set_console
    (fun l => l ++ [Err ("Error watching file " +:+ path +:+ ": " +:+ err_message err)])
    (set_errored (fun e => e ∪ {[w]}) s).

(** Whether the stat issued for the child [n] of [path] succeeds. *)
Definition stat_ok (pf : Platform) (path n : string) : bool :=
  isFulfilled (result (fs_stat pf (path +:+ n))).

(** The entry a child contributes, if any. *)
Definition survivor (pf : Platform) (path n : string) : option PathEntry :=
  match result (fs_stat pf (path +:+ n)) with
  | Fulfilled stats => Some (_addStats {| name := n |} stats)
  | Rejected _ => None
  end.

(** The entry the scenario of the specification expects for [a]. *)
Definition entry_a : PathEntry :=
  {| obj := {| name := "a" |}; isFile := true; mtime := 4000; size := 10 |}.

(** ** Further notions

    Used by the properties that follow those of the specification. *)

(** From [s] to [s'] nothing is taken back: no watcher is forgotten,
    reopened or cleared of its error, and the console keeps its lines. *)
Definition grows (s s' : State) : Prop :=
  (created s ≤ created s')%nat ∧
  closed s ⊆ closed s' ∧
  errored s ⊆ errored s' ∧
  console s `prefix_of` console s'.

(** A platform on which [close()] never throws. *)
Definition close_never_throws (pf : Platform) : Prop :=
  ∀ w, close_throws pf w = None.

(** The states reached when every step runs on a platform satisfying
    [ok]. *)
Inductive reachable_on (ok : Platform -> Prop) : State -> Prop :=
| reach_on_init : reachable_on ok init_state
| reach_on_watchPath pf path s :
    ok pf -> reachable_on ok s -> reachable_on ok (exec (watchPath pf path) s)
| reach_on_unwatchPath pf path s :
    ok pf -> reachable_on ok s -> reachable_on ok (exec (unwatchPath pf path) s)
| reach_on_unwatchAll pf s :
    ok pf -> reachable_on ok s -> reachable_on ok (exec (unwatchAll pf) s)
| reach_on_error pf w err s :
    ok pf -> reachable_on ok s -> is_Some (error_listener s !! w) ->
    reachable_on ok (exec (emit_error pf w err) s).

(** Every watcher [fs.watch] has returned is closed or registered. *)
Definition accounted (s : State) : Prop :=
  ∀ w, (w < created s)%nat -> w ∈ closed s ∨ ∃ path, _watcherMap s !! path = Some w.

(** The directory of the scenario once [b] has left the listing too. *)
Definition settled_root : Inode :=
  IDir 1000 [("tmp", IDir 2000 [("d", IDir 3000 [("a", IFile ten_bytes 4000)])])].

(** * Properties *)

(** ** Running the commands *)

Lemma unwatchPath_run pf path s :
  unwatchPath pf path s = (Normal tt, unwatched pf path s).
Proof.
  unfold unwatchPath, unwatched, mbind, Cmd_bind, gets; simpl.
  destruct (_watcherMap s !! path) as [w|]; [|reflexivity].
  unfold try_catch_finally, try_catch, watcher_close, console_warn, modify.
  destruct (close_throws pf w); reflexivity.
Qed.

Lemma watchPath_run pf path s :
  watchPath pf path s = (Normal tt, watched pf path s).
Proof.
  unfold watchPath, watched, mbind, Cmd_bind, hasOwnProperty, gets; simpl.
  destruct (bool_decide (is_Some (_watcherMap s !! path))); [reflexivity|].
  unfold try_catch, fs_watch, console_warn, watcher_on_error, modify.
  destruct (fs_watch_throws pf path); reflexivity.
Qed.

Lemma exec_unwatchPath pf path s : exec (unwatchPath pf path) s = unwatched pf path s.
Proof. unfold exec. by rewrite unwatchPath_run. Qed.

Lemma exec_watchPath pf path s : exec (watchPath pf path) s = watched pf path s.
Proof. unfold exec. by rewrite watchPath_run. Qed.

Lemma watcherMap_unwatched pf path s :
  _watcherMap (unwatched pf path s) = delete path (_watcherMap s).
Proof.
  unfold unwatched. destruct (_watcherMap s !! path) as [w|] eqn:E.
  - destruct (close_throws pf w); reflexivity.
  - symmetry. by apply delete_id.
Qed.

(** ** The directory lister *)

(** The path of the stat issued for a child: [[path, name].join("")] puts
    nothing between the two. *)
Lemma join_empty_separator (path n : string) :
  Array_join [path; n] "" = path +:+ n.
Proof. reflexivity. Qed.

Lemma reduce_readdir_step pf path (rest done : list string) (total : list PathEntry) :
  reduce_from (readdir_step (done ++ rest)) (length done) total
    (map result (map (fun n => statAsync pf (Array_join [path; n] "")) rest))
  = total ++ omap (survivor pf path) rest.
Proof.
  revert done total.
  induction rest as [|n rest IH]; intros done total.
  - simpl. by rewrite app_nil_r.
  - cbn [map reduce_from].
    assert (Hnext : done ++ n :: rest = (done ++ [n]) ++ rest)
      by (by rewrite <- app_assoc).
    assert (Hlen : S (length done) = length (done ++ [n]))
      by (rewrite length_app; simpl; lia).
    assert (Hstep : readdir_step (done ++ n :: rest) total
                      (result (statAsync pf (Array_join [path; n] ""))) (length done)
                    = total ++ from_option (fun e => [e]) [] (survivor pf path n)).
    { unfold readdir_step, survivor, statAsync.
      rewrite join_empty_separator.
      rewrite (list_lookup_middle done rest n (length done) eq_refl).
      destruct (result (fs_stat pf (path +:+ n))); simpl;
        [reflexivity | by rewrite app_nil_r]. }
    rewrite Hstep, Hnext, Hlen, IH, <- app_assoc.
    f_equal. simpl. by destruct (survivor pf path n).
Qed.

Lemma readdirCmd_run pf path :
  readdirCmd pf path =
  match result (fs_readdir pf path) with
  | Fulfilled names => Fulfilled (omap (survivor pf path) names)
  | Rejected e => Rejected e
  end.
Proof.
  unfold readdirCmd, nodeify, Promise_then, readdirAsync.
  destruct (result (fs_readdir pf path)) as [names|e]; [|reflexivity].
  cbn [result Promise_settle Promise_resolve]. f_equal.
  exact (reduce_readdir_step pf path names [] []).
Qed.

Lemma survivors_names pf path names :
  map (fun e => name (obj e)) (omap (survivor pf path) names)
  = List.filter (stat_ok pf path) names.
Proof.
  induction names as [|n names IH]; [reflexivity|].
  change (omap (survivor pf path) (n :: names))
    with (match survivor pf path n with
          | Some e => e :: omap (survivor pf path) names
          | None => omap (survivor pf path) names
          end).
  cbn [List.filter]. unfold survivor at 1, stat_ok at 1.
  destruct (result (fs_stat pf (path +:+ n))); cbn [isFulfilled map];
    rewrite IH; reflexivity.
Qed.

Lemma filter_split_length {A} (f : A -> bool) (l : list A) :
  (length (List.filter f l) + length (List.filter (fun x => negb (f x)) l))%nat
  = length l.
Proof.
  induction l as [|x l IH]; simpl; [reflexivity|].
  destruct (f x); simpl; lia.
Qed.

Lemma filter_sublist {A} (f : A -> bool) (l : list A) :
  sublist (List.filter f l) l.
Proof.
  induction l as [|x l IH]; simpl; [constructor|].
  destruct (f x); by constructor.
Qed.

(** C1, as stated, fails on the scenario: "/tmp/d" lists [a] and [b], [a]
    is a file of ten bytes and the stat of [b] fails, yet
    [readdir("/tmp/d")] answers the empty list, not the entry of [a].
    The paths it stats are "/tmp/da" and "/tmp/db". *)
Lemma readdir_scenario_bare_path :
  result (fs_readdir scenario "/tmp/d") = Fulfilled ["a"; "b"] ∧
  result (fs_stat scenario "/tmp/d/a") = Fulfilled (Stats.mk false 4000 10) ∧
  isFulfilled (result (fs_stat scenario "/tmp/d/b")) = false ∧
  map (fun n => Array_join ["/tmp/d"; n] "") ["a"; "b"] = ["/tmp/da"; "/tmp/db"] ∧
  readdirCmd scenario "/tmp/d" = Fulfilled [] ∧
  readdirCmd scenario "/tmp/d" ≠ Fulfilled [entry_a].
Proof.
  repeat split; try reflexivity.
  intros H. vm_compute in H. discriminate H.
Qed.

(** C1, amended: with the directory given with its trailing separator,
    [readdir("/tmp/d/")] answers exactly the entry of [a], [b] being left
    out; and in general, when the listing of [path] gives [names], the
    answer holds, in order, one entry per name whose stat succeeds, the
    stat being that of the path argument immediately followed by the
    name. *)
Theorem readdir_stats_concatenated_path :
  readdirCmd scenario "/tmp/d/" = Fulfilled [entry_a] ∧
  ∀ pf path names,
    result (fs_readdir pf path) = Fulfilled names ->
    map (fun n => statAsync pf (Array_join [path; n] "")) names
      = map (fun n => fs_stat pf (path +:+ n)) names ∧
    readdirCmd pf path = Fulfilled (omap (survivor pf path) names).
Proof.
  split; [reflexivity|].
  intros pf path names Hnames. split; [reflexivity|].
  by rewrite readdirCmd_run, Hnames.
Qed.

Lemma readdir_stats_concatenated_path_witness :
  result (fs_readdir scenario "/tmp/d/") = Fulfilled ["a"; "b"] ∧
  readdirCmd scenario "/tmp/d/"
    = Fulfilled (omap (survivor scenario "/tmp/d/") ["a"; "b"]).
Proof.
  split; [reflexivity|].
  apply (proj2 readdir_stats_concatenated_path scenario "/tmp/d/" ["a"; "b"]).
  reflexivity.
Defined.

(** C3, as stated, fails on the scenario: "/tmp/d" lists N = 2 names, of
    which only the stat of [b] fails (K = 1: the stat of "/tmp/d/a"
    succeeds), yet [readdir("/tmp/d")] answers no entry, not N-K = 1. *)
Lemma readdir_bare_path_entry_count :
  result (fs_readdir scenario "/tmp/d") = Fulfilled ["a"; "b"] ∧
  isFulfilled (result (fs_stat scenario "/tmp/d/a")) = true ∧
  isFulfilled (result (fs_stat scenario "/tmp/d/b")) = false ∧
  (∃ entries,
     readdirCmd scenario "/tmp/d" = Fulfilled entries ∧
     length entries = 0%nat ∧
     length entries ≠ (2 - 1)%nat).
Proof.
  repeat split; try reflexivity.
  exists []. repeat split; try reflexivity. discriminate.
Qed.

(** C3, amended: when the listing gives N names and K of the stats
    [readdir] issues fail, each stat being that of the path argument
    immediately followed by the name, [readdir] succeeds with N-K
    entries, whose names are the names of the listing whose stat
    succeeded, in the order of the listing. *)
Theorem readdir_keeps_successful_stats_in_order pf path names :
  result (fs_readdir pf path) = Fulfilled names ->
  ∃ entries,
    readdirCmd pf path = Fulfilled entries ∧
    let N := length names in
    let K := length (List.filter (fun n => negb (stat_ok pf path n)) names) in
    (K ≤ N)%nat ∧
    length entries = (N - K)%nat ∧
    map (fun e => name (obj e)) entries = List.filter (stat_ok pf path) names ∧
    sublist (map (fun e => name (obj e)) entries) names.
Proof.
  intros Hnames. exists (omap (survivor pf path) names).
  split; [by rewrite readdirCmd_run, Hnames|].
  cbv zeta.
  pose proof (filter_split_length (stat_ok pf path) names) as Hsplit.
  pose proof (survivors_names pf path names) as Hsurv.
  assert (Hlen : length (omap (survivor pf path) names)
                 = length (List.filter (stat_ok pf path) names)).
  { rewrite <- Hsurv. by rewrite length_map. }
  repeat split.
  - lia.
  - lia.
  - exact Hsurv.
  - rewrite Hsurv. apply filter_sublist.
Qed.

Lemma readdir_keeps_successful_stats_in_order_witness :
  ∃ entries,
    readdirCmd scenario "/tmp/d/" = Fulfilled entries ∧
    (1 ≤ 2)%nat ∧
    length entries = (2 - 1)%nat ∧
    map (fun e => name (obj e)) entries = ["a"] ∧
    sublist (map (fun e => name (obj e)) entries) ["a"; "b"].
Proof.
  exact (readdir_keeps_successful_stats_in_order scenario "/tmp/d/" ["a"; "b"] eq_refl).
Defined.

(** ** The file reader *)

Lemma readFileCmd_run pf path encoding :
  readFileCmd pf path encoding =
  match result (fs_read pf path), result (fs_stat pf path) with
  | Fulfilled bytes, Fulfilled stats =>
      Fulfilled (_addStats {| data := binarySlice bytes |} stats)
  | Rejected e, Fulfilled _ => Rejected e
  | Fulfilled _, Rejected e => Rejected e
  | Rejected er, Rejected es =>
      if (settled_at (fs_read pf path) <=? settled_at (fs_stat pf path))%nat
      then Rejected er else Rejected es
  end.
Proof.
  unfold readFileCmd, nodeify, Promise_then, Promise_join, readFileAsync_binary,
    Promise_then, statAsync, String_toString.
  destruct (result (fs_read pf path)) as [bytes|er];
    destruct (result (fs_stat pf path)) as [stats|es]; cbn; try reflexivity.
  destruct (settled_at (fs_read pf path) <=? settled_at (fs_stat pf path))%nat;
    reflexivity.
Qed.

(** C2: the [data] field does not depend on the requested encoding: it
    is always the "binary" string of the raw bytes, and no encoding name
    makes the call fail.  On the ten bytes "0123456789" read as "hex" the
    answer is the string "0123456789", not the twenty hex digits of the
    bytes; on the bytes C3 A9 read as "utf8" it is the two code units C3
    and A9; with an encoding name Node does not know the call succeeds. *)
Theorem readFile_data_ignores_encoding :
  (∀ pf path encoding encoding',
     readFileCmd pf path encoding = readFileCmd pf path encoding') ∧
  readFileCmd scenario "/tmp/d/a" "hex"
    = Fulfilled {| obj := {| data := binarySlice ten_bytes |};
                   isFile := true; mtime := 4000; size := 10 |} ∧
  hexSlice ten_bytes ≠ binarySlice ten_bytes ∧
  asciiSlice [Byte.xc3; Byte.xa9] ≠ binarySlice [Byte.xc3; Byte.xa9] ∧
  readFileCmd (memfs accent_root []) "/e.txt" "utf8"
    = Fulfilled {| obj := {| data := [195; 169]%N |};
                   isFile := true; mtime := 5000; size := 2 |} ∧
  isFulfilled (readFileCmd scenario "/tmp/d/a" "no-such-encoding") = true.
Proof.
  split; [intros pf path encoding encoding'; by rewrite !readFileCmd_run|].
  repeat split; try reflexivity; by vm_compute.
Qed.

(** C4: [readFile] succeeds exactly when both the read and the stat
    succeed; when it fails, its error is the error of a sub-operation that
    failed, unchanged; when it succeeds, the answer carries the content and
    the three fields of the stat, never a part of them. *)
Theorem readFile_fails_iff_read_or_stat_fails pf path encoding :
  isFulfilled (readFileCmd pf path encoding)
    = isFulfilled (result (fs_read pf path)) && isFulfilled (result (fs_stat pf path))
  ∧ match readFileCmd pf path encoding with
    | Rejected e =>
        result (fs_read pf path) = Rejected e ∨ result (fs_stat pf path) = Rejected e
    | Fulfilled r =>
        ∃ bytes stats,
          result (fs_read pf path) = Fulfilled bytes ∧
          result (fs_stat pf path) = Fulfilled stats ∧
          r = _addStats {| data := binarySlice bytes |} stats
    end.
Proof.
  rewrite readFileCmd_run.
  destruct (result (fs_read pf path)) as [bytes|er];
    destruct (result (fs_stat pf path)) as [stats|es]; cbn.
  - split; [reflexivity|]. by exists bytes, stats.
  - split; [reflexivity|]. by right.
  - split; [reflexivity|]. by left.
  - destruct (settled_at (fs_read pf path) <=? settled_at (fs_stat pf path))%nat;
      cbn; (split; [reflexivity|]); [by left | by right].
Qed.

(** ** The watch registry *)

(** An object has at most one property per key. *)
Lemma count_key_lookup path (m : gmap string nat) :
  count_key path m = match m !! path with Some _ => 1%nat | None => 0%nat end.
Proof.
  unfold count_key.
  induction m as [|k w m Hk IH] using map_ind.
  - by rewrite map_to_list_empty, lookup_empty.
  - rewrite map_to_list_insert by done.
    rewrite filter_cons. simpl.
    destruct (decide (k = path)) as [->|Hne].
    + rewrite lookup_insert_eq. simpl. rewrite IH, Hk. reflexivity.
    + rewrite lookup_insert_ne by done. exact IH.
Qed.

Lemma entries_for_lookup path s :
  entries_for path s
  = match _watcherMap s !! path with Some _ => 1%nat | None => 0%nat end.
Proof. apply count_key_lookup. Qed.

Lemma watched_present pf path s :
  is_Some (_watcherMap s !! path) -> watched pf path s = s.
Proof.
  intros H. unfold watched. by rewrite bool_decide_eq_true_2.
Qed.

Lemma watched_created pf path s :
  _watcherMap s !! path = None -> fs_watch_throws pf path = None ->
  watched pf path s
  = set_error_listener <[created s := path]>
      (set_watcherMap <[path := created s]> (set_created (S (created s)) s)).
Proof.
  intros Hnone Hok. unfold watched.
  rewrite bool_decide_eq_false_2 by (rewrite Hnone; by intros [? ?]).
  by rewrite Hok.
Qed.

Lemma watched_failed pf path s e :
  _watcherMap s !! path = None -> fs_watch_throws pf path = Some e ->
  watched pf path s
  = set_console
      (fun l => l ++ [Warn ("Failed to watch file " +:+ path +:+ ": "
                            +:+ err_message e)]) s.
Proof.
  intros Hnone Hfail. unfold watched.
  rewrite bool_decide_eq_false_2 by (rewrite Hnone; by intros [? ?]).
  by rewrite Hfail.
Qed.

(** The three ways [watchPath] can go. *)
Lemma watched_cases pf path s :
  (is_Some (_watcherMap s !! path) ∧ watched pf path s = s) ∨
  (_watcherMap s !! path = None ∧ fs_watch_throws pf path = None ∧
   watched pf path s
   = set_error_listener <[created s := path]>
       (set_watcherMap <[path := created s]> (set_created (S (created s)) s))) ∨
  (∃ e, _watcherMap s !! path = None ∧ fs_watch_throws pf path = Some e ∧
   watched pf path s
   = set_console
       (fun l => l ++ [Warn ("Failed to watch file " +:+ path +:+ ": "
                             +:+ err_message e)]) s).
Proof.
  destruct (_watcherMap s !! path) as [w|] eqn:Hl.
  - left. split; [by eexists|]. apply watched_present. rewrite Hl. by eexists.
  - destruct (fs_watch_throws pf path) as [e|] eqn:Hw.
    + right; right. exists e. by rewrite (watched_failed pf path s e).
    + right; left. by rewrite watched_created.
Qed.

(** C5, as stated, fails where the handle cannot be created: "/tmp/nowhere"
    does not exist, [fs.watch] throws on it both times, and after two
    calls of [watchPath] the registry holds no entry for it, not one. *)
Lemma watchPath_twice_on_missing_path :
  let s1 := exec (watchPath scenario "/tmp/nowhere") init_state in
  let s2 := exec (watchPath scenario "/tmp/nowhere") s1 in
  fs_watch_throws scenario "/tmp/nowhere" = Some (ENOENT "watch" "/tmp/nowhere") ∧
  entries_for "/tmp/nowhere" s2 = 0%nat ∧
  entries_for "/tmp/nowhere" s2 ≠ 1%nat.
Proof. by vm_compute. Qed.

(** C5, amended: [watchPath] on a registered path changes nothing (no
    watcher created, nothing thrown); two calls in succession create at
    most one watcher and leave at most one entry for the path: exactly
    one, with the second call changing nothing, when the path was
    registered or the first call could create its watcher, and none when
    the path was not registered and [fs.watch] throws both times.  No
    state of the registry holds two entries for a path. *)
Theorem watchPath_twice pf pf' path s :
  let s1 := exec (watchPath pf path) s in
  let s2 := exec (watchPath pf' path) s1 in
  (is_Some (_watcherMap s !! path) -> watchPath pf path s = (Normal tt, s)) ∧
  answer (watchPath pf path) s = Normal tt ∧
  answer (watchPath pf' path) s1 = Normal tt ∧
  (created s2 ≤ S (created s))%nat ∧
  (is_Some (_watcherMap s !! path) ∨ fs_watch_throws pf path = None ->
     s2 = s1 ∧ entries_for path s2 = 1%nat) ∧
  (_watcherMap s !! path = None ->
   is_Some (fs_watch_throws pf path) -> is_Some (fs_watch_throws pf' path) ->
     entries_for path s2 = 0%nat) ∧
  (∀ q st, (entries_for q st ≤ 1)%nat).
Proof.
  cbv zeta. unfold answer. rewrite !exec_watchPath, !watchPath_run. simpl.
  split; [intros H; by rewrite watched_present|].
  split; [reflexivity|]. split; [reflexivity|].
  split.
  { destruct (watched_cases pf path s) as [[Hs ->]|[(Hn & Hw & ->)|(e & Hn & Hw & ->)]].
    - destruct (watched_cases pf' path s) as [[_ ->]|[(Hn & _)|(e & Hn & _)]];
        [lia | rewrite Hn in Hs; by destruct Hs..].
    - rewrite watched_present; [simpl; lia|]. simpl. rewrite lookup_insert_eq. by eexists.
    - match goal with |- (created (watched pf' path ?t) ≤ _)%nat =>
        destruct (watched_cases pf' path t) as [[_ ->]|[(_ & _ & ->)|(e' & _ & _ & ->)]]
      end; simpl; lia. }
  split.
  { intros Hor.
    assert (Hreg : is_Some (_watcherMap (watched pf path s) !! path)).
    { destruct (watched_cases pf path s) as [[Hs ->]|[(Hn & Hw & ->)|(e & Hn & Hw & ->)]].
      - exact Hs.
      - simpl. rewrite lookup_insert_eq. by eexists.
      - destruct Hor as [Hs|Hok]; [by rewrite Hn in Hs; destruct Hs | congruence]. }
    rewrite (watched_present pf' path _ Hreg). split; [reflexivity|].
    rewrite entries_for_lookup. by destruct Hreg as [w ->]. }
  split.
  { intros Hn [e He] [e' He'].
    rewrite (watched_failed pf path s e Hn He).
    rewrite (watched_failed pf' path _ e') by done.
    rewrite entries_for_lookup. simpl. by rewrite Hn. }
  intros q st. rewrite entries_for_lookup. destruct (_watcherMap st !! q); lia.
Qed.

Lemma watchPath_twice_witness :
  let s1 := exec (watchPath scenario "/tmp/d/") init_state in
  let s2 := exec (watchPath scenario "/tmp/d/") s1 in
  s2 = s1 ∧ entries_for "/tmp/d/" s2 = 1%nat.
Proof.
  pose proof (watchPath_twice scenario scenario "/tmp/d/" init_state) as H.
  cbv zeta in H. destruct H as (_ & _ & _ & _ & Hone & _).
  apply Hone. right. reflexivity.
Defined.

(** C6: [unwatchPath] never throws; on a path that is not registered it
    changes nothing; on a registered path the entry is removed whether
    [close()] returns or throws, and when it throws the error goes to the
    console and nowhere else. *)
Theorem unwatchPath_removes_entry pf path s :
  let s' := exec (unwatchPath pf path) s in
  answer (unwatchPath pf path) s = Normal tt ∧
  (_watcherMap s !! path = None -> s' = s) ∧
  (∀ w, _watcherMap s !! path = Some w ->
     _watcherMap s' = delete path (_watcherMap s) ∧
     _watcherMap s' !! path = None ∧
     (close_throws pf w = None ->
        closed s' = closed s ∪ {[w]} ∧ console s' = console s) ∧
     (∀ e, close_throws pf w = Some e ->
        closed s' = closed s ∧
        console s' = console s ++
          [Warn ("Failed to unwatch file " +:+ path +:+ ": " +:+ err_message e)])).
Proof.
  cbv zeta. unfold answer. rewrite exec_unwatchPath, unwatchPath_run. simpl.
  split; [reflexivity|]. split.
  - intros Hn. unfold unwatched. by rewrite Hn.
  - intros w Hw. rewrite watcherMap_unwatched.
    split; [reflexivity|]. split; [apply lookup_delete_eq|].
    unfold unwatched. rewrite Hw. split.
    + intros ->. by simpl.
    + intros e ->. by simpl.
Qed.

Lemma unwatchPath_removes_entry_witness :
  let s := exec (watchPath (memfs scenario_root [0%nat]) "/tmp/d/") init_state in
  let s' := exec (unwatchPath (memfs scenario_root [0%nat]) "/tmp/d/") s in
  _watcherMap s !! "/tmp/d/" = Some 0%nat ∧
  close_throws (memfs scenario_root [0%nat]) 0 = Some (mkError "EBADF" "EBADF, close") ∧
  _watcherMap s' !! "/tmp/d/" = None ∧
  console s' = [Warn "Failed to unwatch file /tmp/d/: EBADF, close"] ∧
  exec (unwatchPath scenario "/tmp/nowhere") s = s.
Proof.
  pose proof (unwatchPath_removes_entry (memfs scenario_root [0%nat]) "/tmp/d/"
                (exec (watchPath (memfs scenario_root [0%nat]) "/tmp/d/") init_state))
    as (_ & _ & Hreg).
  pose proof (unwatchPath_removes_entry scenario "/tmp/nowhere"
                (exec (watchPath (memfs scenario_root [0%nat]) "/tmp/d/") init_state))
    as (_ & Hnone & _).
  destruct (Hreg 0%nat eq_refl) as (_ & Hgone & _ & Hthrows).
  destruct (Hthrows _ eq_refl) as (_ & Hlog).
  cbv zeta. split; [reflexivity|]. split; [reflexivity|].
  split; [exact Hgone|]. split; [exact Hlog|].
  apply Hnone. reflexivity.
Defined.

(** C10: [unwatchPath] and [watchPath] on a path leave the entry of every
    other path as it was. *)
Theorem watch_commands_frame pf p q s :
  p ≠ q ->
  _watcherMap (exec (unwatchPath pf p) s) !! q = _watcherMap s !! q ∧
  _watcherMap (exec (watchPath pf p) s) !! q = _watcherMap s !! q.
Proof.
  intros Hne. rewrite exec_unwatchPath, exec_watchPath, watcherMap_unwatched.
  split; [by apply lookup_delete_ne|].
  destruct (watched_cases pf p s) as [[_ ->]|[(_ & _ & ->)|(e & _ & _ & ->)]];
    simpl; [done | by apply lookup_insert_ne | done].
Qed.

Lemma watch_commands_frame_witness :
  let s := exec (watchPath scenario "/tmp/d/") init_state in
  _watcherMap (exec (unwatchPath scenario "/tmp/") s) !! "/tmp/d/" = Some 0%nat ∧
  _watcherMap (exec (watchPath scenario "/tmp/") s) !! "/tmp/d/" = Some 0%nat.
Proof.
  cbv zeta.
  refine (watch_commands_frame scenario "/tmp/" "/tmp/d/"
            (exec (watchPath scenario "/tmp/d/") init_state) _).
  discriminate.
Defined.

(** The body of the loop of [unwatchAll] does what [unwatchPath] does:
    the [hasOwnProperty] test only skips paths on which [unwatchPath]
    would change nothing. *)
Lemma unwatch_if_own_run pf path s :
  unwatch_if_own pf path s = (Normal tt, unwatched pf path s).
Proof.
  unfold unwatch_if_own, mbind, Cmd_bind, hasOwnProperty, gets. simpl.
  destruct (_watcherMap s !! path) as [w|] eqn:Hl.
  - rewrite bool_decide_eq_true_2 by (by eexists). apply unwatchPath_run.
  - rewrite bool_decide_eq_false_2 by (by intros [? ?]).
    unfold unwatched. by rewrite Hl.
Qed.

Lemma for_in_unwatch_run pf keys s :
  for_in keys (unwatch_if_own pf) s
  = (Normal tt, foldl (fun st path => unwatched pf path st) s keys).
Proof.
  revert s. induction keys as [|k keys IH]; intros s; [reflexivity|].
  cbn [for_in foldl]. unfold mbind at 1, Cmd_bind at 1.
  rewrite unwatch_if_own_run. apply IH.
Qed.

Lemma unwatchAll_run pf s :
  unwatchAll pf s
  = (Normal tt, foldl (fun st path => unwatched pf path st) s (registered_paths s)).
Proof.
  unfold unwatchAll, mbind at 1, Cmd_bind at 1, gets.
  apply for_in_unwatch_run.
Qed.

Lemma watcherMap_foldl_unwatched pf keys s :
  _watcherMap (foldl (fun st path => unwatched pf path st) s keys)
  = foldl (fun m path => delete path m) (_watcherMap s) keys.
Proof.
  revert s. induction keys as [|k keys IH]; intros s; [reflexivity|].
  cbn [foldl]. by rewrite IH, watcherMap_unwatched.
Qed.

Lemma lookup_foldl_delete (keys : list string) (m : gmap string nat) k :
  foldl (fun m path => delete path m) m keys !! k
  = if decide (k ∈ keys) then None else m !! k.
Proof.
  revert m. induction keys as [|k' keys IH]; intros m; cbn [foldl].
  - rewrite decide_False by apply not_elem_of_nil. reflexivity.
  - rewrite IH. destruct (decide (k ∈ keys)) as [Hin|Hnin].
    + rewrite decide_True by (by right). reflexivity.
    + destruct (decide (k = k')) as [->|Hne].
      * rewrite decide_True by (by left). apply lookup_delete_eq.
      * rewrite decide_False by (rewrite elem_of_cons; tauto).
        by apply lookup_delete_ne.
Qed.

Lemma registered_paths_spec s path :
  path ∈ registered_paths s ↔ is_Some (_watcherMap s !! path).
Proof.
  unfold registered_paths. rewrite list_elem_of_fmap. split.
  - intros [[k w] [-> Hin]]. apply elem_of_map_to_list in Hin. by eexists.
  - intros [w Hw]. exists (path, w). split; [reflexivity|].
    by apply elem_of_map_to_list.
Qed.

Lemma registry_emptied_by_loop pf keys s :
  (∀ path, is_Some (_watcherMap s !! path) -> path ∈ keys) ->
  _watcherMap (foldl (fun st path => unwatched pf path st) s keys) = ∅.
Proof.
  intros Hcover. apply map_eq. intros k.
  rewrite watcherMap_foldl_unwatched, lookup_foldl_delete, lookup_empty.
  destruct (decide (k ∈ keys)) as [Hin|Hnin]; [reflexivity|].
  destruct (_watcherMap s !! k) as [w|] eqn:Hl; [|reflexivity].
  exfalso. apply Hnin, Hcover. rewrite Hl. by eexists.
Qed.

(** C7: [unwatchAll] never throws, does what [unwatchPath] does on each
    registered path, each taken once, and leaves the registry empty, from
    any state. *)
Theorem unwatchAll_empties_registry pf s :
  _watcherMap (exec (unwatchAll pf) s) = ∅ ∧
  answer (unwatchAll pf) s = Normal tt ∧
  exec (unwatchAll pf) s
    = foldl (fun st path => exec (unwatchPath pf path) st) s (registered_paths s) ∧
  NoDup (registered_paths s) ∧
  (∀ path, path ∈ registered_paths s ↔ is_Some (_watcherMap s !! path)).
Proof.
  unfold answer, exec at 1 2. rewrite unwatchAll_run. simpl.
  split.
  { apply registry_emptied_by_loop. intros path. apply registered_paths_spec. }
  split; [reflexivity|]. split.
  { generalize (registered_paths s) as keys. intros keys. revert s.
    induction keys as [|k keys IH]; intros s; [reflexivity|].
    cbn [foldl]. by rewrite exec_unwatchPath, IH. }
  split; [apply NoDup_fst_map_to_list|].
  intros path. apply registered_paths_spec.
Qed.

(** The order in which the loop of [unwatchAll] takes the keys does not
    matter to the registry: over any enumeration that covers the
    registered paths the loop never throws and leaves the registry empty. *)
Lemma unwatchAll_loop_any_order pf keys s :
  (∀ path, is_Some (_watcherMap s !! path) -> path ∈ keys) ->
  answer (for_in keys (unwatch_if_own pf)) s = Normal tt ∧
  _watcherMap (exec (for_in keys (unwatch_if_own pf)) s) = ∅.
Proof.
  intros Hcover. unfold answer, exec. rewrite for_in_unwatch_run. simpl.
  split; [reflexivity|]. by apply registry_emptied_by_loop.
Qed.

(** C9: none of the three watch commands ever throws; and when
    [fs.watch] throws on a path that is not registered, [watchPath] leaves
    the registry as it was, the path unregistered and no watcher created,
    the error going to the console only. *)
Theorem watch_commands_never_throw pf path s :
  answer (watchPath pf path) s = Normal tt ∧
  answer (unwatchPath pf path) s = Normal tt ∧
  answer (unwatchAll pf) s = Normal tt ∧
  (∀ e, _watcherMap s !! path = None -> fs_watch_throws pf path = Some e ->
     let s' := exec (watchPath pf path) s in
     _watcherMap s' = _watcherMap s ∧
     _watcherMap s' !! path = None ∧
     created s' = created s ∧
     console s' = console s ++
       [Warn ("Failed to watch file " +:+ path +:+ ": " +:+ err_message e)]).
Proof.
  unfold answer. rewrite watchPath_run, unwatchPath_run, unwatchAll_run. simpl.
  repeat (split; [reflexivity|]).
  intros e Hn Hw. cbv zeta.
  rewrite exec_watchPath, (watched_failed pf path s e Hn Hw). simpl.
  by rewrite Hn.
Qed.

Lemma watch_commands_never_throw_witness :
  let s' := exec (watchPath scenario "/tmp/nowhere") init_state in
  _watcherMap s' = ∅ ∧
  _watcherMap s' !! "/tmp/nowhere" = None ∧
  created s' = 0%nat ∧
  console s' = [Warn "Failed to watch file /tmp/nowhere: ENOENT, watch '/tmp/nowhere'"].
Proof.
  pose proof (watch_commands_never_throw scenario "/tmp/nowhere" init_state)
    as (_ & _ & _ & Hfail).
  exact (Hfail (ENOENT "watch" "/tmp/nowhere") eq_refl eq_refl).
Defined.

(** ** No dangling handle *)

Lemma consistent_no_dangling s : consistent s -> no_dangling s.
Proof.
  intros [Hreg Hold] path w Hw.
  destruct (Hreg path w Hw) as (Hl & Hc & He).
  split; [|done]. apply Hold. left. by eexists.
Qed.

Lemma consistent_init : consistent init_state.
Proof.
  split.
  - intros path w Hw. simpl in Hw. by rewrite lookup_empty in Hw.
  - intros w [[p Hp]|[Hc|He]]; simpl in *.
    + by rewrite lookup_empty in Hp.
    + by apply not_elem_of_empty in Hc.
    + by apply not_elem_of_empty in He.
Qed.

(** [unwatchPath] restores consistency even from a state where the
    watcher registered under [path] itself may already have failed. *)
Lemma consistent_unwatched_from pf path s :
  (∀ q w, q ≠ path -> _watcherMap s !! q = Some w ->
     error_listener s !! w = Some q ∧ (w ∉ closed s) ∧ (w ∉ errored s)) ->
  (∀ w, _watcherMap s !! path = Some w -> error_listener s !! w = Some path) ->
  (∀ w, is_Some (error_listener s !! w) ∨ w ∈ closed s ∨ w ∈ errored s ->
     (w < created s)%nat) ->
  consistent (unwatched pf path s).
Proof.
  intros Hothers Hmine Hold. unfold unwatched.
  destruct (_watcherMap s !! path) as [w0|] eqn:Hl.
  - pose proof (Hmine w0 eq_refl) as Hl0.
    assert (Hfresh : ∀ q w, delete path (_watcherMap s) !! q = Some w ->
              q ≠ path ∧ _watcherMap s !! q = Some w ∧ w ≠ w0).
    { intros q w Hq. apply lookup_delete_Some in Hq as [Hne Hq].
      split; [done|]. split; [done|]. intros ->.
      destruct (Hothers q w0 (not_eq_sym Hne) Hq) as (Hlq & _). congruence. }
    destruct (close_throws pf w0) as [e|]; split; simpl.
    + intros q w Hq. destruct (Hfresh q w Hq) as (Hne & Hq' & _). by apply Hothers.
    + exact Hold.
    + intros q w Hq. destruct (Hfresh q w Hq) as (Hne & Hq' & Hw).
      destruct (Hothers q w Hne Hq') as (Hlq & Hc & He).
      split; [done|]. split; [|done].
      intros [Hin|Hin]%elem_of_union; [done|].
      by apply elem_of_singleton in Hin.
    + intros w [Hw|[Hw|Hw]].
      * apply Hold. by left.
      * apply elem_of_union in Hw as [Hw|Hw]; [apply Hold; by right; left|].
        apply elem_of_singleton in Hw as ->. apply Hold. left. by eexists.
      * apply Hold. by right; right.
  - split; [|exact Hold].
    intros q w Hq. destruct (decide (q = path)) as [->|Hne]; [congruence|].
    by apply Hothers.
Qed.

Lemma consistent_unwatched pf path s :
  consistent s -> consistent (unwatched pf path s).
Proof.
  intros [Hreg Hold]. apply consistent_unwatched_from.
  - intros q w _ Hq. by apply Hreg.
  - intros w Hw. by apply Hreg.
  - exact Hold.
Qed.

Lemma consistent_watched pf path s :
  consistent s -> consistent (watched pf path s).
Proof.
  intros [Hreg Hold].
  destruct (watched_cases pf path s) as [[_ ->]|[(Hn & _ & ->)|(e & _ & _ & ->)]];
    [done| |done].
  assert (Hnew : ¬ (is_Some (error_listener s !! created s)
                    ∨ created s ∈ closed s ∨ created s ∈ errored s)).
  { intros H. apply Hold in H. lia. }
  split; simpl.
  - intros q w Hq. apply lookup_insert_Some in Hq as [[<- <-]|[Hne Hq]].
    + rewrite lookup_insert_eq. split; [done|]. split; intros ?; apply Hnew; tauto.
    + destruct (Hreg q w Hq) as (Hl & Hc & He).
      rewrite lookup_insert_ne; [done|].
      intros <-. apply Hnew. left. by eexists.
  - intros w [Hw|Hw].
    + destruct (decide (created s = w)) as [<-|Hne]; [lia|].
      rewrite lookup_insert_ne in Hw by done.
      assert (w < created s)%nat by (apply Hold; by left). lia.
    + assert (w < created s)%nat by (apply Hold; by right). lia.
Qed.

Lemma consistent_unwatched_all pf keys s :
  consistent s -> consistent (foldl (fun st path => unwatched pf path st) s keys).
Proof.
  revert s. induction keys as [|k keys IH]; intros s Hs; [done|].
  cbn [foldl]. by apply IH, consistent_unwatched.
Qed.

Lemma emit_error_run pf w err s path :
  error_listener s !! w = Some path ->
  emit_error pf w err s = (Normal tt, unwatched pf path (failed w path err s)).
Proof.
  intros Hl. unfold emit_error, mbind, Cmd_bind, modify, gets, console_error. simpl.
  rewrite Hl. apply unwatchPath_run.
Qed.

Lemma consistent_failed pf w err s path :
  consistent s -> error_listener s !! w = Some path ->
  consistent (unwatched pf path (failed w path err s)).
Proof.
  intros [Hreg Hold] Hl. apply consistent_unwatched_from; simpl.
  - intros q w' Hne Hq. destruct (Hreg q w' Hq) as (Hl' & Hc & He).
    split; [done|]. split; [done|].
    intros [Hin|Hin]%elem_of_union; [done|].
    apply elem_of_singleton in Hin as ->. congruence.
  - intros w' Hw'. by apply Hreg.
  - intros w' [Hw'|[Hw'|Hw']].
    + apply Hold. by left.
    + apply Hold. by right; left.
    + apply elem_of_union in Hw' as [Hw'|Hw']; [apply Hold; by right; right|].
      apply elem_of_singleton in Hw' as ->. apply Hold. left. by eexists.
Qed.

Lemma reachable_consistent s : reachable s -> consistent s.
Proof.
  induction 1 as [|pf path s _ IH|pf path s _ IH|pf s _ IH|pf w err s _ IH [path Hl]].
  - apply consistent_init.
  - rewrite exec_watchPath. by apply consistent_watched.
  - rewrite exec_unwatchPath. by apply consistent_unwatched.
  - unfold exec. rewrite unwatchAll_run. by apply consistent_unwatched_all.
  - unfold exec. rewrite (emit_error_run pf w err s path Hl).
    by apply consistent_failed.
Qed.

(** C8: in every state the registry can reach, every registered watcher
    is active (created, not closed, no error reported) and carries the
    listener of its own path; and when a watcher with the listener for
    [path] reports an error, the listener logs it and does what
    [unwatchPath(path)] does: nothing is thrown, the entry of [path] is
    gone, and again no registered watcher dangles. *)
Theorem registry_self_heals s :
  reachable s ->
  no_dangling s ∧
  (∀ path w, _watcherMap s !! path = Some w -> error_listener s !! w = Some path) ∧
  (∀ pf w err path,
     error_listener s !! w = Some path ->
     let s' := exec (emit_error pf w err) s in
     answer (emit_error pf w err) s = Normal tt ∧
     s' = exec (unwatchPath pf path) (failed w path err s) ∧
     _watcherMap s' = _watcherMap (exec (unwatchPath pf path) s) ∧
     _watcherMap s' !! path = None ∧
     w ∈ errored s' ∧
     no_dangling s').
Proof.
  intros Hreach. pose proof (reachable_consistent s Hreach) as Hs.
  split; [by apply consistent_no_dangling|].
  split; [intros path w Hw; by apply Hs|].
  intros pf w err path Hl. cbv zeta.
  assert (Hexec : exec (emit_error pf w err) s = unwatched pf path (failed w path err s))
    by (unfold exec; by rewrite (emit_error_run pf w err s path Hl)).
  rewrite Hexec, !exec_unwatchPath, !watcherMap_unwatched.
  split; [unfold answer; by rewrite (emit_error_run pf w err s path Hl)|].
  split; [reflexivity|]. split; [reflexivity|].
  split; [apply lookup_delete_eq|]. split.
  - unfold unwatched. simpl.
    destruct (_watcherMap s !! path) as [w0|]; [destruct (close_throws pf w0)|];
      simpl; apply elem_of_union_r, elem_of_singleton; reflexivity.
  - by apply consistent_no_dangling, consistent_failed.
Qed.

Lemma registry_self_heals_witness :
  let s := exec (watchPath scenario "/tmp/d/") init_state in
  let s' := exec (emit_error scenario 0 (mkError "EPERM" "EPERM, watch")) s in
  _watcherMap s !! "/tmp/d/" = Some 0%nat ∧
  no_dangling s ∧
  _watcherMap s' !! "/tmp/d/" = None ∧
  no_dangling s'.
Proof.
  pose proof (registry_self_heals
                (exec (watchPath scenario "/tmp/d/") init_state)
                (reach_watchPath scenario "/tmp/d/" init_state reach_init))
    as (Hnd & _ & Herr).
  destruct (Herr scenario 0%nat (mkError "EPERM" "EPERM, watch") "/tmp/d/" eq_refl)
    as (_ & _ & _ & Hgone & _ & Hnd').
  cbv zeta. split; [reflexivity|]. split; [exact Hnd|].
  split; [exact Hgone | exact Hnd'].
Defined.

(** * Further properties of the commands *)

(** ** The directory lister, continued *)

(** X1: [readdir] fails exactly when the listing of the directory fails,
    and then with the error of the listing, unchanged; once the listing
    succeeds no stat can make the call fail, and the answer has at most
    one entry per listed name. *)
Theorem readdir_fails_only_with_listing pf path :
  match result (fs_readdir pf path) with
  | Rejected e => readdirCmd pf path = Rejected e
  | Fulfilled names =>
      ∃ entries, readdirCmd pf path = Fulfilled entries ∧
                 (length entries ≤ length names)%nat
  end.
Proof.
  rewrite readdirCmd_run.
  destruct (result (fs_readdir pf path)) as [names|e]; [|reflexivity].
  eexists. split; [reflexivity|].
  pose proof (survivors_names pf path names) as Hsurv.
  pose proof (filter_split_length (stat_ok pf path) names) as Hsplit.
  apply (f_equal length) in Hsurv. rewrite length_map in Hsurv. lia.
Qed.

(** X2: once the listing succeeds, the answer is the empty list exactly
    when no child stat succeeds, which covers the empty directory. *)
Theorem readdir_empty_iff_no_stat_succeeds pf path names :
  result (fs_readdir pf path) = Fulfilled names ->
  (readdirCmd pf path = Fulfilled [] ↔
   ∀ n, n ∈ names -> stat_ok pf path n = false).
Proof.
  intros Hnames. rewrite readdirCmd_run, Hnames. split.
  - intros Hempty n Hin.
    assert (He : omap (survivor pf path) names = []) by congruence.
    destruct (stat_ok pf path n) eqn:Hok; [|reflexivity].
    unfold stat_ok in Hok.
    destruct (result (fs_stat pf (path +:+ n))) as [stats|e] eqn:Hst; [|discriminate].
    assert (Hmem : _addStats {| name := n |} stats ∈ omap (survivor pf path) names).
    { apply list_elem_of_omap. exists n. split; [done|].
      unfold survivor. by rewrite Hst. }
    rewrite He in Hmem. by apply not_elem_of_nil in Hmem.
  - intros Hnone. f_equal. clear Hnames.
    induction names as [|n names IH]; [reflexivity|].
    change (omap (survivor pf path) (n :: names))
      with (match survivor pf path n with
            | Some e => e :: omap (survivor pf path) names
            | None => omap (survivor pf path) names
            end).
    pose proof (Hnone n (list_elem_of_here n names)) as Hn.
    unfold stat_ok in Hn. unfold survivor at 1.
    destruct (result (fs_stat pf (path +:+ n))); [discriminate|].
    apply IH. intros m Hm. apply Hnone. by right.
Qed.

Lemma readdir_empty_iff_no_stat_succeeds_witness :
  readdirCmd scenario "/tmp/d" = Fulfilled [].
Proof.
  apply (proj2 (readdir_empty_iff_no_stat_succeeds scenario "/tmp/d" ["a"; "b"] eq_refl)).
  intros n Hn.
  apply elem_of_cons in Hn as [->|Hn]; [reflexivity|].
  apply elem_of_cons in Hn as [->|Hn]; [reflexivity|].
  by apply not_elem_of_nil in Hn.
Defined.

(** X3: a child whose stat fails leaves no trace: the answer is the one
    the same directory gives without that child in its listing. *)
Theorem readdir_failed_child_as_absent pf pf' path before n after :
  (∀ m, result (fs_stat pf (path +:+ m)) = result (fs_stat pf' (path +:+ m))) ->
  result (fs_readdir pf path) = Fulfilled (before ++ n :: after) ->
  result (fs_readdir pf' path) = Fulfilled (before ++ after) ->
  stat_ok pf path n = false ->
  readdirCmd pf path = readdirCmd pf' path.
Proof.
  intros Hstat Hl Hl' Hfail. rewrite !readdirCmd_run, Hl, Hl'. f_equal.
  assert (Hsame : ∀ l : list string,
             omap (survivor pf path) l = omap (survivor pf' path) l).
  { intros l. induction l as [|m l IH]; [reflexivity|].
    change (omap (survivor pf path) (m :: l))
      with (match survivor pf path m with
            | Some e => e :: omap (survivor pf path) l
            | None => omap (survivor pf path) l
            end).
    change (omap (survivor pf' path) (m :: l))
      with (match survivor pf' path m with
            | Some e => e :: omap (survivor pf' path) l
            | None => omap (survivor pf' path) l
            end).
    rewrite IH. unfold survivor. by rewrite Hstat. }
  rewrite <- Hsame, !omap_app. f_equal.
  change (omap (survivor pf path) (n :: after))
    with (match survivor pf path n with
          | Some e => e :: omap (survivor pf path) after
          | None => omap (survivor pf path) after
          end).
  unfold stat_ok in Hfail. unfold survivor at 1.
  by destruct (result (fs_stat pf (path +:+ n))).
Qed.

Lemma readdir_failed_child_as_absent_witness :
  readdirCmd scenario "/tmp/d/" = readdirCmd (memfs settled_root []) "/tmp/d/".
Proof.
  apply (readdir_failed_child_as_absent scenario (memfs settled_root [])
           "/tmp/d/" ["a"] "b" []); [|reflexivity..].
  intros m. simpl. unfold mem_stat, resolve.
  change (is_absolute ("/tmp/d/" +:+ m)) with true. cbv iota.
  change (components ("/tmp/d/" +:+ m)) with ("tmp" :: "d" :: components_from m "").
  simpl. destruct (components_from m "") as [|c cs]; [reflexivity|].
  simpl. repeat case_decide; subst; try reflexivity; try congruence.
  all: destruct cs; reflexivity.
Defined.

(** X4: a listing without repeated names gives an answer without
    repeated names: no child is reported twice. *)
Theorem readdir_no_duplicate_names pf path names entries :
  result (fs_readdir pf path) = Fulfilled names ->
  NoDup names ->
  readdirCmd pf path = Fulfilled entries ->
  NoDup (map (fun e => name (obj e)) entries).
Proof.
  intros Hnames Hnd Hrun. rewrite readdirCmd_run, Hnames in Hrun.
  injection Hrun as <-. rewrite survivors_names.
  eapply sublist_NoDup; [exact Hnd | apply filter_sublist].
Qed.

Lemma readdir_no_duplicate_names_witness :
  NoDup (map (fun e => name (obj e)) [entry_a]).
Proof.
  apply (readdir_no_duplicate_names scenario "/tmp/d/" ["a"; "b"] [entry_a] eq_refl);
    [|reflexivity].
  compute_done.
Defined.

(** X5: the metadata of a [readdir] entry is the metadata [readFile]
    answers for that child: on the same platform, when [readFile] of the
    directory path followed by the entry's name succeeds, its [isFile],
    [mtime] and [size] are those of the entry. *)
Theorem readdir_entry_agrees_with_readFile pf path entries e encoding r :
  readdirCmd pf path = Fulfilled entries ->
  e ∈ entries ->
  readFileCmd pf (path +:+ name (obj e)) encoding = Fulfilled r ->
  isFile r = isFile e ∧ mtime r = mtime e ∧ size r = size e.
Proof.
  intros Hdir Hin Hfile. rewrite readdirCmd_run in Hdir.
  destruct (result (fs_readdir pf path)) as [names|err]; [|discriminate].
  injection Hdir as <-.
  apply list_elem_of_omap in Hin as (n & _ & Hn). unfold survivor in Hn.
  destruct (result (fs_stat pf (path +:+ n))) as [stats|err] eqn:Hst; [|discriminate].
  injection Hn as <-. simpl in Hfile.
  rewrite readFileCmd_run, Hst in Hfile.
  destruct (result (fs_read pf (path +:+ n))); [|discriminate].
  by injection Hfile as <-.
Qed.

Lemma readdir_entry_agrees_with_readFile_witness :
  isFile (_addStats {| data := binarySlice ten_bytes |} (Stats.mk false 4000 10))
    = isFile entry_a ∧
  mtime (_addStats {| data := binarySlice ten_bytes |} (Stats.mk false 4000 10))
    = mtime entry_a ∧
  size (_addStats {| data := binarySlice ten_bytes |} (Stats.mk false 4000 10))
    = size entry_a.
Proof.
  apply (readdir_entry_agrees_with_readFile scenario "/tmp/d/" [entry_a] entry_a "utf8");
    [reflexivity | apply list_elem_of_here | reflexivity].
Defined.

(** ** The file reader, continued *)

Lemma binarySlice_inj b b' : binarySlice b = binarySlice b' -> b = b'.
Proof.
  revert b'. induction b as [|x b IH]; intros [|x' b'] H; try discriminate;
    [reflexivity|].
  unfold binarySlice in H. simpl in H. injection H as Hx Hb.
  f_equal; [|by apply IH].
  pose proof (Byte.of_to_N x) as H1. pose proof (Byte.of_to_N x') as H2.
  rewrite Hx in H1. congruence.
Qed.

(** X6: the [data] of a successful [readFile] holds the file's bytes
    without loss: one code unit per byte, each below 256, and two reads
    that answer the same [data] read the same bytes. *)
Theorem readFile_data_is_lossless pf path encoding r bytes :
  readFileCmd pf path encoding = Fulfilled r ->
  result (fs_read pf path) = Fulfilled bytes ->
  length (data (obj r)) = length bytes ∧
  Forall (fun u => (u < 256)%N) (data (obj r)) ∧
  (∀ pf' path' encoding' r' bytes',
     readFileCmd pf' path' encoding' = Fulfilled r' ->
     result (fs_read pf' path') = Fulfilled bytes' ->
     data (obj r') = data (obj r) -> bytes' = bytes).
Proof.
  intros Hrun Hread. rewrite readFileCmd_run, Hread in Hrun.
  destruct (result (fs_stat pf path)); [|discriminate].
  injection Hrun as <-. simpl.
  split; [apply length_map|]. split.
  - apply Forall_forall. intros u Hu. apply list_elem_of_fmap in Hu as (x & -> & _).
    pose proof (Byte.to_N_bounded x). lia.
  - intros pf' path' encoding' r' bytes' Hrun' Hread' Hdata.
    rewrite readFileCmd_run, Hread' in Hrun'.
    destruct (result (fs_stat pf' path')); [|discriminate].
    injection Hrun' as <-. simpl in Hdata. by apply binarySlice_inj.
Qed.

Lemma readFile_data_is_lossless_witness :
  length (binarySlice ten_bytes) = length ten_bytes ∧
  Forall (fun u => (u < 256)%N) (binarySlice ten_bytes).
Proof.
  destruct (readFile_data_is_lossless scenario "/tmp/d/a" "utf8"
              (_addStats {| data := binarySlice ten_bytes |} (Stats.mk false 4000 10))
              ten_bytes eq_refl eq_refl) as (Hlen & Hall & _).
  split; [exact Hlen | exact Hall].
Defined.

(** X7: when the read and the stat both fail, [readFile] carries the
    error of the one that settled first. *)
Theorem readFile_error_is_first_failure pf path encoding er es :
  result (fs_read pf path) = Rejected er ->
  result (fs_stat pf path) = Rejected es ->
  ((settled_at (fs_read pf path) < settled_at (fs_stat pf path))%nat ->
     readFileCmd pf path encoding = Rejected er) ∧
  ((settled_at (fs_stat pf path) < settled_at (fs_read pf path))%nat ->
     readFileCmd pf path encoding = Rejected es).
Proof.
  intros Hr Hs. rewrite readFileCmd_run, Hr, Hs.
  destruct (settled_at (fs_read pf path) <=? settled_at (fs_stat pf path))%nat eqn:Hle.
  - apply Nat.leb_le in Hle. split; [done|]. intros Hlt. lia.
  - apply Nat.leb_gt in Hle. split; [|done]. intros Hlt. lia.
Qed.

Lemma readFile_error_is_first_failure_witness :
  readFileCmd scenario "/tmp/nowhere" "utf8" = Rejected (ENOENT "stat" "/tmp/nowhere").
Proof.
  destruct (readFile_error_is_first_failure scenario "/tmp/nowhere" "utf8"
              (ENOENT "open" "/tmp/nowhere") (ENOENT "stat" "/tmp/nowhere")
              eq_refl eq_refl) as (_ & Hstat).
  apply Hstat. exact (Nat.lt_succ_diag_r 1).
Defined.

(** ** The watch registry, continued *)

(** X8: [unwatchPath] is idempotent: a second call on the same path,
    whatever the platform answers then, changes nothing at all. *)
Theorem unwatchPath_idempotent pf pf' path s :
  exec (unwatchPath pf' path) (exec (unwatchPath pf path) s)
  = exec (unwatchPath pf path) s.
Proof.
  rewrite !exec_unwatchPath. unfold unwatched at 1.
  by rewrite watcherMap_unwatched, lookup_delete_eq.
Qed.

(** X9: watching a path that was not registered and then unwatching it
    gives the registry back as it was, whether or not the watcher could
    be created; and when it could, and [close()] returns, that watcher
    ends up closed. *)
Theorem watch_then_unwatch_restores_registry pf pf' path s :
  _watcherMap s !! path = None ->
  let s' := exec (unwatchPath pf' path) (exec (watchPath pf path) s) in
  _watcherMap s' = _watcherMap s ∧
  (fs_watch_throws pf path = None -> close_throws pf' (created s) = None ->
   created s ∈ closed s' ∧ created s' = S (created s)).
Proof.
  intros Hn. cbv zeta. rewrite exec_unwatchPath, exec_watchPath, watcherMap_unwatched.
  split.
  - destruct (watched_cases pf path s) as [[Hs _]|[(_ & _ & ->)|(e & _ & _ & ->)]].
    + rewrite Hn in Hs. by destruct Hs.
    + simpl. rewrite delete_insert_eq. by apply delete_id.
    + simpl. by apply delete_id.
  - intros Hw Hc. rewrite (watched_created pf path s Hn Hw).
    unfold unwatched. simpl. rewrite lookup_insert_eq, Hc. simpl.
    split; [|reflexivity]. apply elem_of_union_r, elem_of_singleton. reflexivity.
Qed.

Lemma watch_then_unwatch_restores_registry_witness :
  _watcherMap (exec (unwatchPath scenario "/tmp/d/")
                 (exec (watchPath scenario "/tmp/d/") init_state)) = ∅ ∧
  0%nat ∈ closed (exec (unwatchPath scenario "/tmp/d/")
                    (exec (watchPath scenario "/tmp/d/") init_state)).
Proof.
  destruct (watch_then_unwatch_restores_registry scenario scenario "/tmp/d/"
              init_state eq_refl) as (Hmap & Hclosed).
  split; [exact Hmap|]. exact (proj1 (Hclosed eq_refl eq_refl)).
Defined.

(** X10: in every state the registry can reach, a watcher is registered
    under one path only: two registered paths never share a watcher. *)
Theorem registry_is_injective s p q w :
  reachable s ->
  _watcherMap s !! p = Some w -> _watcherMap s !! q = Some w -> p = q.
Proof.
  intros Hreach Hp Hq.
  destruct (reachable_consistent s Hreach) as [Hreg _].
  destruct (Hreg p w Hp) as (Hlp & _). destruct (Hreg q w Hq) as (Hlq & _).
  congruence.
Qed.

Lemma registry_is_injective_witness :
  "/tmp/d/" = "/tmp/d/".
Proof.
  apply (registry_is_injective
           (exec (watchPath scenario "/tmp/") (exec (watchPath scenario "/tmp/d/") init_state))
           "/tmp/d/" "/tmp/d/" 0%nat).
  - apply reach_watchPath, reach_watchPath, reach_init.
  - reflexivity.
  - reflexivity.
Defined.

Lemma unwatchAll_on_empty pf s :
  _watcherMap s = ∅ -> exec (unwatchAll pf) s = s.
Proof.
  intros He. unfold exec. rewrite unwatchAll_run. simpl.
  unfold registered_paths. by rewrite He, map_to_list_empty.
Qed.

Lemma exec_unwatchAll pf s :
  exec (unwatchAll pf) s
  = foldl (fun st path => unwatched pf path st) s (registered_paths s).
Proof. unfold exec. by rewrite unwatchAll_run. Qed.

(** X11: [unwatchAll] is idempotent: run again, on any platform, it
    changes nothing at all. *)
Theorem unwatchAll_idempotent pf pf' s :
  exec (unwatchAll pf') (exec (unwatchAll pf) s) = exec (unwatchAll pf) s.
Proof.
  apply unwatchAll_on_empty. rewrite exec_unwatchAll.
  apply registry_emptied_by_loop. intros path. apply registered_paths_spec.
Qed.

Lemma closed_unwatched pf path s w :
  w ∈ closed (unwatched pf path s) ↔
  w ∈ closed s ∨ (_watcherMap s !! path = Some w ∧ close_throws pf w = None).
Proof.
  unfold unwatched. destruct (_watcherMap s !! path) as [w0|] eqn:Hl.
  - destruct (close_throws pf w0) as [e|] eqn:Hc; simpl.
    + split; [by left|]. intros [H|[H1 H2]]; [done|]. congruence.
    + rewrite elem_of_union, elem_of_singleton. split.
      * intros [H| ->]; [by left | by right].
      * intros [H|[H1 H2]]; [by left|]. right. congruence.
  - split; [by left|]. intros [H|[H1 H2]]; [done | congruence].
Qed.

Lemma closed_foldl_unwatched pf keys s w :
  w ∈ closed (foldl (fun st path => unwatched pf path st) s keys) ↔
  w ∈ closed s ∨
  (∃ path, path ∈ keys ∧ _watcherMap s !! path = Some w ∧ close_throws pf w = None).
Proof.
  revert s. induction keys as [|k keys IH]; intros s; cbn [foldl].
  - split; [by left|]. intros [H|(p & Hp & _)]; [done|].
    by apply not_elem_of_nil in Hp.
  - rewrite IH, closed_unwatched, watcherMap_unwatched. split.
    + intros [[H|[H1 H2]]|(p & Hp & Hl & Hc)].
      * by left.
      * right. exists k. split; [by left|done].
      * apply lookup_delete_Some in Hl as [_ Hl].
        right. exists p. split; [by right|done].
    + intros [H|(p & Hp & Hl & Hc)]; [by left; left|].
      destruct (decide (k = p)) as [->|Hne]; [by left; right|].
      right. exists p. split; [|split; [|done]].
      * apply elem_of_cons in Hp as [->|Hp]; [done|exact Hp].
      * by rewrite lookup_delete_ne.
Qed.

(** X12: what [unwatchAll] closes: exactly the watchers that were
    registered and whose [close()] returns; no other watcher is closed,
    and none of those is skipped. *)
Theorem unwatchAll_closes_registered pf s w :
  w ∈ closed (exec (unwatchAll pf) s) ↔
  w ∈ closed s ∨ (∃ path, _watcherMap s !! path = Some w ∧ close_throws pf w = None).
Proof.
  rewrite exec_unwatchAll, closed_foldl_unwatched. split.
  - intros [H|(p & _ & Hl & Hc)]; [by left|]. right. by exists p.
  - intros [H|(p & Hl & Hc)]; [by left|]. right. exists p.
    split; [|done]. apply registered_paths_spec. by eexists.
Qed.

Lemma grows_refl s : grows s s.
Proof. by repeat split. Qed.

Lemma grows_unwatched pf path s : grows s (unwatched pf path s).
Proof.
  unfold unwatched. destruct (_watcherMap s !! path) as [w|]; [|apply grows_refl].
  destruct (close_throws pf w); repeat split; simpl;
    try done; try set_solver; try lia.
  by apply prefix_app_r.
Qed.

Lemma exec_emit_error pf w err s :
  exec (emit_error pf w err) s
  = match error_listener s !! w with
    | Some path => unwatched pf path (failed w path err s)
    | None => set_errored (fun e => e ∪ {[w]}) s
    end.
Proof.
  destruct (error_listener s !! w) as [path|] eqn:Hl.
  - unfold exec. by rewrite (emit_error_run pf w err s path Hl).
  - unfold exec, emit_error, mbind, Cmd_bind, modify, gets, throw. simpl.
    by rewrite Hl.
Qed.

(** X14: the error listener unwatches whatever is registered under the
    path it captured: when watcher [w] reports an error and its path is
    by then registered with a watcher [w'], possibly another one, the
    entry is removed and [close()] is called on [w']. *)
Theorem error_listener_unwatches_current_watcher pf s w w' path err :
  error_listener s !! w = Some path ->
  _watcherMap s !! path = Some w' ->
  let s' := exec (emit_error pf w err) s in
  _watcherMap s' = delete path (_watcherMap s) ∧
  w ∈ errored s' ∧
  (close_throws pf w' = None -> w' ∈ closed s').
Proof.
  intros Hl Hw. cbv zeta. rewrite exec_emit_error, Hl, watcherMap_unwatched.
  split; [reflexivity|]. split.
  - apply (grows_unwatched pf path (failed w path err s)). simpl.
    apply elem_of_union_r, elem_of_singleton. reflexivity.
  - intros Hc. apply closed_unwatched. right. by split.
Qed.

(** The registry after: [watchPath], an [unwatchPath] whose [close()]
    throws, and [watchPath] again, all on "/tmp/d/". *)
Lemma error_listener_unwatches_current_watcher_witness :
  error_listener
    (exec (watchPath scenario "/tmp/d/")
       (exec (unwatchPath (memfs scenario_root [0%nat]) "/tmp/d/")
          (exec (watchPath scenario "/tmp/d/") init_state))) !! 0%nat = Some "/tmp/d/" ∧
  _watcherMap
    (exec (watchPath scenario "/tmp/d/")
       (exec (unwatchPath (memfs scenario_root [0%nat]) "/tmp/d/")
          (exec (watchPath scenario "/tmp/d/") init_state))) !! "/tmp/d/" = Some 1%nat ∧
  1%nat ∈ closed
    (exec (emit_error scenario 0 (mkError "EPERM" "EPERM, watch"))
       (exec (watchPath scenario "/tmp/d/")
          (exec (unwatchPath (memfs scenario_root [0%nat]) "/tmp/d/")
             (exec (watchPath scenario "/tmp/d/") init_state)))).
Proof.
  split; [reflexivity|]. split; [reflexivity|].
  destruct (error_listener_unwatches_current_watcher scenario
              (exec (watchPath scenario "/tmp/d/")
                 (exec (unwatchPath (memfs scenario_root [0%nat]) "/tmp/d/")
                    (exec (watchPath scenario "/tmp/d/") init_state)))
              0%nat 1%nat "/tmp/d/" (mkError "EPERM" "EPERM, watch")
              eq_refl eq_refl) as (_ & _ & Hclosed).
  exact (Hclosed eq_refl).
Defined.

(** X15: an error reported by a watcher whose path is no longer
    registered is only noted and logged: the registry, the closed
    watchers and the count of watchers stay as they were, and nothing is
    thrown. *)
Theorem error_on_unwatched_path_only_logs pf s w path err :
  error_listener s !! w = Some path ->
  _watcherMap s !! path = None ->
  let s' := exec (emit_error pf w err) s in
  answer (emit_error pf w err) s = Normal tt ∧
  _watcherMap s' = _watcherMap s ∧
  closed s' = closed s ∧
  created s' = created s ∧
  errored s' = errored s ∪ {[w]} ∧
  console s' = console s ++
    [Err ("Error watching file " +:+ path +:+ ": " +:+ err_message err)].
Proof.
  intros Hl Hn. cbv zeta. unfold answer.
  rewrite exec_emit_error, Hl, (emit_error_run pf w err s path Hl).
  unfold unwatched. simpl. rewrite Hn. by simpl.
Qed.

Lemma error_on_unwatched_path_only_logs_witness :
  _watcherMap
    (exec (emit_error scenario 0 (mkError "EPERM" "EPERM, watch"))
       (exec (unwatchPath scenario "/tmp/d/")
          (exec (watchPath scenario "/tmp/d/") init_state))) = ∅ ∧
  console
    (exec (emit_error scenario 0 (mkError "EPERM" "EPERM, watch"))
       (exec (unwatchPath scenario "/tmp/d/")
          (exec (watchPath scenario "/tmp/d/") init_state)))
  = [Err "Error watching file /tmp/d/: EPERM, watch"].
Proof.
  destruct (error_on_unwatched_path_only_logs scenario
              (exec (unwatchPath scenario "/tmp/d/")
                 (exec (watchPath scenario "/tmp/d/") init_state))
              0%nat "/tmp/d/" (mkError "EPERM" "EPERM, watch") eq_refl eq_refl)
    as (_ & Hmap & _ & _ & _ & Hlog).
  split; [exact Hmap | exact Hlog].
Defined.

Lemma frame_unwatched pf path s :
  created (unwatched pf path s) = created s ∧
  error_listener (unwatched pf path s) = error_listener s.
Proof.
  unfold unwatched. destruct (_watcherMap s !! path) as [w|]; [|done].
  by destruct (close_throws pf w).
Qed.

Lemma frame_unwatched_all pf keys s :
  created (foldl (fun st path => unwatched pf path st) s keys) = created s ∧
  error_listener (foldl (fun st path => unwatched pf path st) s keys)
  = error_listener s.
Proof.
  revert s. induction keys as [|k keys IH]; intros s; [done|].
  cbn [foldl]. destruct (IH (unwatched pf k s)) as [-> ->].
  apply frame_unwatched.
Qed.

Lemma reachable_listeners s w :
  reachable s -> (w < created s)%nat -> is_Some (error_listener s !! w).
Proof.
  intros Hreach. revert w.
  induction Hreach as [|pf path s _ IH|pf path s _ IH|pf s _ IH|pf w' err s _ IH [path Hl]];
    intros w Hw.
  - simpl in Hw. lia.
  - rewrite exec_watchPath in *.
    destruct (watched_cases pf path s) as [[_ Hs]|[(_ & _ & Hs)|(e & _ & _ & Hs)]];
      rewrite Hs in *; simpl in *; [by apply IH| |by apply IH].
    destruct (decide (created s = w)) as [<-|Hne].
    + rewrite lookup_insert_eq. by eexists.
    + rewrite lookup_insert_ne by done. apply IH. lia.
  - rewrite exec_unwatchPath in *.
    destruct (frame_unwatched pf path s) as [Hc Hl]. rewrite Hl. apply IH. lia.
  - rewrite exec_unwatchAll in *.
    destruct (frame_unwatched_all pf (registered_paths s) s) as [Hc Hl].
    rewrite Hl. apply IH. lia.
  - rewrite exec_emit_error, Hl in *.
    destruct (frame_unwatched pf path (failed w' path err s)) as [Hc Hl'].
    rewrite Hl'. simpl. apply IH. rewrite Hc in Hw. exact Hw.
Qed.

(** X16: in every state the registry can reach, every watcher [fs.watch]
    has returned carries the error listener, and only those do; so an
    error event of any of them is handled and never thrown. *)
Theorem every_watcher_has_error_listener s w :
  reachable s ->
  (is_Some (error_listener s !! w) ↔ (w < created s)%nat) ∧
  ((w < created s)%nat -> ∀ pf err, answer (emit_error pf w err) s = Normal tt).
Proof.
  intros Hreach. split; [split|].
  - intros Hl. destruct (reachable_consistent s Hreach) as [_ Hold].
    apply Hold. by left.
  - by apply reachable_listeners.
  - intros Hw pf err.
    destruct (reachable_listeners s w Hreach Hw) as [path Hl].
    unfold answer. by rewrite (emit_error_run pf w err s path Hl).
Qed.

Lemma every_watcher_has_error_listener_witness :
  answer (emit_error scenario 0 (mkError "EPERM" "EPERM, watch"))
    (exec (watchPath scenario "/tmp/d/") init_state) = Normal tt.
Proof.
  destruct (every_watcher_has_error_listener
              (exec (watchPath scenario "/tmp/d/") init_state) 0%nat
              (reach_watchPath scenario "/tmp/d/" init_state reach_init))
    as (_ & Hhandled).
  apply Hhandled. exact (Nat.lt_0_succ 0).
Defined.

Lemma accounted_unwatched pf path s :
  close_never_throws pf -> accounted s -> accounted (unwatched pf path s).
Proof.
  intros Hok Hs w Hw.
  destruct (frame_unwatched pf path s) as [Hc _]. rewrite Hc in Hw.
  destruct (Hs w Hw) as [Hcl|(p & Hp)].
  - left. by apply (grows_unwatched pf path s).
  - destruct (decide (p = path)) as [->|Hne].
    + left. apply closed_unwatched. right. by split.
    + right. exists p. rewrite watcherMap_unwatched. by rewrite lookup_delete_ne.
Qed.

Lemma accounted_unwatched_all pf keys s :
  close_never_throws pf -> accounted s ->
  accounted (foldl (fun st path => unwatched pf path st) s keys).
Proof.
  intros Hok. revert s. induction keys as [|k keys IH]; intros s Hs; [done|].
  cbn [foldl]. by apply IH, accounted_unwatched.
Qed.

Lemma accounted_watched pf path s : accounted s -> accounted (watched pf path s).
Proof.
  intros Hs.
  destruct (watched_cases pf path s) as [[_ ->]|[(Hn & _ & ->)|(e & _ & _ & ->)]];
    [done| |done].
  intros w Hw. simpl in *.
  destruct (decide (w = created s)) as [->|Hne].
  - right. exists path. by rewrite lookup_insert_eq.
  - assert (Hlt : (w < created s)%nat) by lia.
    destruct (Hs w Hlt) as [Hcl|(p & Hp)]; [by left|].
    right. exists p. rewrite lookup_insert_ne; [done|]. congruence.
Qed.

(** X17: no watcher leaks while [close()] does not throw: in every state
    reached on such platforms, each watcher [fs.watch] has returned is
    either still registered or closed. *)
Theorem no_watcher_leaks s w :
  reachable_on close_never_throws s ->
  (w < created s)%nat ->
  w ∈ closed s ∨ ∃ path, _watcherMap s !! path = Some w.
Proof.
  intros Hreach. revert w. change (accounted s).
  induction Hreach as [|pf path s Hok _ IH|pf path s Hok _ IH|pf s Hok _ IH
                       |pf w' err s Hok _ IH [path Hl]].
  - intros w Hw. simpl in Hw. lia.
  - rewrite exec_watchPath. by apply accounted_watched.
  - rewrite exec_unwatchPath. by apply accounted_unwatched.
  - rewrite exec_unwatchAll. by apply accounted_unwatched_all.
  - rewrite exec_emit_error, Hl. apply accounted_unwatched; [done|].
    intros w Hw. exact (IH w Hw).
Qed.

Lemma no_watcher_leaks_witness :
  0%nat ∈ closed (exec (unwatchAll scenario) (exec (watchPath scenario "/tmp/d/") init_state))
  ∨ ∃ path,
      _watcherMap (exec (unwatchAll scenario) (exec (watchPath scenario "/tmp/d/") init_state))
        !! path = Some 0%nat.
Proof.
  apply (no_watcher_leaks
           (exec (unwatchAll scenario) (exec (watchPath scenario "/tmp/d/") init_state))
           0%nat).
  - apply reach_on_unwatchAll; [intros w; reflexivity|].
    apply reach_on_watchPath; [intros w; reflexivity|]. apply reach_on_init.
  - apply Nat.lt_0_succ.
Defined.
